(** * save-memory.py: the endpoint prober [save_memory]

    A shallow embedding of [save_memory] from [src/save-memory.py] and the
    properties of its sequential trial of the candidate endpoints.

    The script is effectful Python: it prints, it calls [requests.post],
    it catches exceptions and it returns from inside a [for] loop.  The
    embedding therefore uses a small monad over an explicit program state
    (object store, standard output, record of the HTTP exchanges) whose
    outcomes are the ways a Python statement can finish.  Both
    [requests.post] and [print] answer to the outside world and both may
    raise: the network and the output stream are parameters of the
    script. *)

From stdpp Require Import base option list strings gmap.

#[local] Set Warnings "-register-all".

Local Open Scope Z_scope.

(** ** Python values and the object store *)

Module Py.

Definition loc := nat.

(** The values that reach [save_memory]: [None], an (immutable) [str], or
    a reference to a mutable object of the store. *)
Inductive value :=
| VNone
| VStr (s : string)
| VRef (l : loc).

(** Mutable objects: a [list] of strings and a [dict] with string keys,
    kept in insertion order as Python does. *)
Inductive object :=
| OList (items : list string)
| ODict (entries : list (string * value)).

(** What [json=] sees of a value at the moment of the call. *)
Inductive json :=
| JNull
| JString (s : string)
| JArray (items : list string)
| JObject (fields : list (string * json))
| JOther.

(** Exception classes.  [isinstance_RequestException] is the subclass
    test of [except requests.exceptions.RequestException]; every class
    here derives from [Exception], which is what the outer
    [except Exception] tests.  [KeyboardInterrupt] and [SystemExit], which
    Python keeps outside [Exception] because they are not errors, are not
    represented. *)
Inductive exn_class :=
| ConnectionError
| Timeout
| HTTPError
| RequestException
| TypeError
| ValueError
| RuntimeError
| UnicodeEncodeError
| BrokenPipeError.

Record exn := { cls : exn_class; str : string }.

Definition isinstance_RequestException (e : exn) : bool :=
  match cls e with
  | ConnectionError | Timeout | HTTPError | RequestException => true
  | TypeError | ValueError | RuntimeError
  | UnicodeEncodeError | BrokenPipeError => false
  end.

Definition isinstance_Exception (e : exn) : bool := true.

End Py.
Export Py.

(** ** HTTP exchanges *)

Inductive http_method := GET | POST.

Record Request := {
  method : http_method;
  url : string;
  json_body : json;
  timeout : Z
}.

Record Response := { status_code : Z; text : string }.

(** [requests.post] either hands back a response or raises. *)
Inductive post_result :=
| Responded (response : Response)
| Raised (e : exn).

Abbreviation exchange := (Request * post_result)%type.

(** ** Program state and the statement monad *)

(** [stdout] holds the texts written by [print], one entry for each call
    that went through, in order; [wire] holds the calls of
    [requests.post] with what came back. *)
Record state := {
  heap : gmap loc object;
  stdout : list string;
  wire : list exchange
}.

(** How a statement finishes: normally, by [continue], by [return b], or
    by an exception on its way out. *)
Inductive outcome (A : Type) :=
| Normal (a : A)
| Continue
| Return (b : bool)
| Raise (e : exn).
Arguments Normal {A} a.
Arguments Continue {A}.
Arguments Return {A} b.
Arguments Raise {A} e.

Definition M (A : Type) : Type := state → outcome A * state.

Global Instance M_ret : MRet M := λ A a σ, (Normal a, σ).

Global Instance M_bind : MBind M := λ A B f m σ,
  match m σ with
  | (Normal a, σ') => f a σ'
  | (Continue, σ') => (Continue, σ')
  | (Return b, σ') => (Return b, σ')
  | (Raise e, σ') => (Raise e, σ')
  end.

Definition return_ {A} (b : bool) : M A := λ σ, (Return b, σ).
Definition continue {A} : M A := λ σ, (Continue, σ).
Definition pass : M unit := mret tt.

(** What a write to standard output can raise: the stream cannot encode
    the text, or the other end of the stream is gone. *)
Inductive write_error :=
| EncodeError (message : string)
| PipeError (message : string).

Definition exn_of_write_error (w : write_error) : exn :=
  match w with
  | EncodeError message => {| cls := UnicodeEncodeError; str := message |}
  | PipeError message => {| cls := BrokenPipeError; str := message |}
  end.

(** [print(s)]: one more line on standard output, or the exception the
    stream raises.  [console k s] is what the stream does with the text [s]
    when [k] lines have been written; nothing is written when it raises. *)
Definition print (console : nat → string → option write_error) (s : string)
    : M unit := λ σ,
  match console (length (stdout σ)) s with
  | None =>
      (Normal tt,
       {| heap := heap σ; stdout := stdout σ ++ [s]; wire := wire σ |})
  | Some w => (Raise (exn_of_write_error w), σ)
  end.

(** The stream that takes every line: a working standard output.  A
    statement written with [accepting] is about the runs in which no
    [print] raises. *)
Definition accepting : nat → string → option write_error := λ _ _, None.

(** Allocation of a fresh object; the only way the store grows. *)
Definition alloc (o : object) : M value := λ σ,
  let l := fresh (dom (heap σ)) in
  (Normal (VRef l),
   {| heap := <[l := o]> (heap σ); stdout := stdout σ; wire := wire σ |}).

(** [try: body except C as e: handler e], with [catches] the class test. *)
Definition try_except {A} (body : M A) (catches : exn → bool)
    (handler : exn → M A) : M A := λ σ,
  match body σ with
  | (Raise e, σ') => if catches e then handler e σ' else (Raise e, σ')
  | r => r
  end.

(** [for x in xs: body x].  [continue] and a normal end of the body both go
    on with the next element; [return] and an exception leave the loop. *)
Fixpoint for_in {X} (xs : list X) (body : X → M unit) : M unit :=
  match xs with
  | [] => mret tt
  | x :: rest => λ σ,
      match body x σ with
      | (Normal _, σ') | (Continue, σ') => for_in rest body σ'
      | (Return b, σ') => (Return b, σ')
      | (Raise e, σ') => (Raise e, σ')
      end
  end.

(** The result of a call, as its caller sees it. *)
Inductive call_result :=
| Returned (b : bool)
| ReturnedNone
| Propagated (e : exn).

Definition call (body : M unit) (σ : state) : call_result * state :=
  match body σ with
  | (Return b, σ') => (Returned b, σ')
  | (Normal _, σ') | (Continue, σ') => (ReturnedNone, σ')
  | (Raise e, σ') => (Propagated e, σ')
  end.

(** ** Reading a value for [json=] *)

Definition json_of_value (h : gmap loc object) (v : value) : json :=
  match v with
  | VNone => JNull
  | VStr s => JString s
  | VRef l =>
      match h !! l with
      | Some (OList items) => JArray items
      | _ => JOther
      end
  end.

Definition json_of_payload (h : gmap loc object) (v : value) : json :=
  match v with
  | VRef l =>
      match h !! l with
      | Some (ODict entries) =>
          JObject (map (λ kv, (kv.1, json_of_value h kv.2)) entries)
      | _ => json_of_value h v
      end
  | _ => json_of_value h v
  end.

(** ** The script *)

(** The literal list of candidate endpoints. *)
Definition endpoints : list string :=
  [ "http://localhost:8050/api/save_memory";
    "http://localhost:8051/api/save_memory";
    "http://localhost:8050/sse/save_memory";
    "http://localhost:8051/sse/save_memory";
    "http://localhost:8050/mem0/save_memory";
    "http://localhost:8051/mem0/save_memory" ]%string.

Section Script.

(** Standard output as seen from the script. *)
Variable console : nat → string → option write_error.

(** The network and the [requests] library as seen from the script: the
    result of the [n]-th request of the run.  It may depend on everything
    the request carries. *)
Variable network : nat → Request → post_result.

(** [requests.post(endpoint, json=payload, timeout=t)] *)
Definition requests_post (endpoint : string) (payload : value) (t : Z)
    : M Response := λ σ,
  let request := {| method := POST; url := endpoint;
                    json_body := json_of_payload (heap σ) payload;
                    timeout := t |} in
  let result := network (length (wire σ)) request in
  let σ' := {| heap := heap σ; stdout := stdout σ;
               wire := wire σ ++ [(request, result)] |} in
  match result with
  | Responded response => (Normal response, σ')
  | Raised e => (Raise e, σ')
  end.

(** The body of one iteration of [for endpoint in endpoints]. *)
Definition attempt (payload : value) (endpoint : string) : M unit :=
  try_except
    (print console ("Trying endpoint: " +:+ endpoint);;
     response ← requests_post endpoint payload 5;
     if bool_decide (status_code response = 200) then
       print console ("Memory saved successfully via " +:+ endpoint);;
       print console ("Response: " +:+ text response);;
       return_ true
     else pass)
    isinstance_RequestException
    (λ e, print console ("Error with " +:+ endpoint +:+ ": " +:+ str e);;
          continue).

(** The [try] block with the endpoint list as a parameter. *)
Definition attemptDelivery (payload : value) (candidates : list string)
    : M unit :=
  try_except
    (for_in candidates (attempt payload);;
     print console "Failed to save memory to any endpoint";;
     return_ false)
    isinstance_Exception
    (λ e, print console ("Error: " +:+ str e);;
          return_ false).

(** The body of [save_memory], over the list the loop walks. *)
Definition save_memory_body (candidates : list string)
    (memory_text : string) (tags : value) : M unit :=
  tags ← (match tags with VNone => alloc (OList []) | _ => mret tags end);
  payload ← alloc (ODict [("memory"%string, VStr memory_text);
                          ("tags"%string, tags)]);
  attemptDelivery payload candidates.

Definition save_memory_with (candidates : list string)
    (memory_text : string) (tags : value)
    : state → call_result * state :=
  call (save_memory_body candidates memory_text tags).

(** [save_memory(memory_text, tags)] *)
Definition save_memory (memory_text : string) (tags : value)
    : state → call_result * state :=
  save_memory_with endpoints memory_text tags.

End Script.

Definition initial : state := {| heap := ∅; stdout := []; wire := [] |}.


(** ** Observations on a run *)

(** The exchanges and the lines a call added to the state it started in. *)
Definition attempts (σ σ' : state) : list exchange :=
  drop (length (wire σ)) (wire σ').

Definition printed (σ σ' : state) : list string :=
  drop (length (stdout σ)) (stdout σ').

Definition attempted_urls (σ σ' : state) : list string :=
  (λ x : exchange, url x.1) <$> attempts σ σ'.

(** The three ways an attempt can end, read off the tests the loop body
    makes: the [status_code == 200] test, the inner [except] clause, and
    neither. *)
Definition succeeded (x : exchange) : bool :=
  match x.2 with
  | Responded response => bool_decide (status_code response = 200)
  | Raised _ => false
  end.

Definition recoverable (x : exchange) : bool :=
  match x.2 with
  | Responded response => negb (bool_decide (status_code response = 200))
  | Raised e => isinstance_RequestException e
  end.

Definition unexpected (x : exchange) : bool :=
  match x.2 with
  | Responded _ => false
  | Raised e => negb (isinstance_RequestException e)
  end.

(** The lines one attempt prints. *)
Definition attempt_lines (x : exchange) : list string :=
  let endpoint := url x.1 in
  ("Trying endpoint: " +:+ endpoint) ::
  match x.2 with
  | Responded response =>
      if bool_decide (status_code response = 200)
      then [ "Memory saved successfully via " +:+ endpoint;
             "Response: " +:+ text response ]
      else []
  | Raised e =>
      if isinstance_RequestException e
      then [ "Error with " +:+ endpoint +:+ ": " +:+ str e ]
      else []
  end.

(** The request the loop body sends to [endpoint]. *)
Definition request_to (body : json) (endpoint : string) : Request :=
  {| method := POST; url := endpoint; json_body := body; timeout := 5 |}.

Section Probing.

Variable network : nat → Request → post_result.
Variable body : json.

Definition exchange_at (n : nat) (endpoint : string) : exchange :=
  (request_to body endpoint, network n (request_to body endpoint)).

(** [probing n candidates log o]: walking [candidates] from request
    number [n] makes the exchanges [log] and leaves the loop by [o]. *)
Inductive probing : nat → list string → list exchange → outcome unit → Prop :=
| probing_exhausted n :
    probing n [] [] (Normal tt)
| probing_next n endpoint rest log o :
    recoverable (exchange_at n endpoint) = true →
    probing (S n) rest log o →
    probing n (endpoint :: rest) (exchange_at n endpoint :: log) o
| probing_success n endpoint rest :
    succeeded (exchange_at n endpoint) = true →
    probing n (endpoint :: rest) [exchange_at n endpoint] (Return true)
| probing_unexpected n endpoint rest e :
    (exchange_at n endpoint).2 = Raised e →
    isinstance_RequestException e = false →
    probing n (endpoint :: rest) [exchange_at n endpoint] (Raise e).

End Probing.

(** How [attemptDelivery] closes after the loop left by [o]. *)
Definition closing_lines (o : outcome unit) : list string :=
  match o with
  | Normal _ | Continue => [ "Failed to save memory to any endpoint" ]
  | Return _ => []
  | Raise e => [ "Error: " +:+ str e ]
  end.

Definition closing_result (o : outcome unit) : bool :=
  match o with
  | Return b => b
  | _ => false
  end.

Definition extend (σ : state) (lines : list string) (log : list exchange)
    : state :=
  {| heap := heap σ; stdout := stdout σ ++ lines; wire := wire σ ++ log |}.

(** How one iteration leaves the loop body. *)
Definition attempt_outcome (x : exchange) : outcome unit :=
  match x.2 with
  | Responded response =>
      if bool_decide (status_code response = 200)
      then Return true else Normal tt
  | Raised e =>
      if isinstance_RequestException e then Continue else Raise e
  end.

(** The body [json=payload] carries, read in the store of the caller. *)
Definition payload_json (h : gmap loc object) (memory_text : string)
    (tags : value) : json :=
  JObject [ ("memory"%string, JString memory_text);
            ("tags"%string,
             match tags with
             | VNone => JArray []
             | _ => json_of_value h tags
             end) ].

(** A reference handed to the call points into the store. *)
Definition live (h : gmap loc object) (v : value) : Prop :=
  match v with
  | VRef l => is_Some (h !! l)
  | _ => True
  end.

(** The store [h'] holds the dictionary [payload] built for
    [memory_text] and [tags], at a location that was free in [h]. *)
Definition holds_payload (h h' : gmap loc object) (memory_text : string)
    (tags payload : value) : Prop :=
  ∃ l tags',
    payload = VRef l ∧ h !! l = None
    ∧ h' !! l = Some (ODict [ ("memory"%string, VStr memory_text);
                              ("tags"%string, tags') ])
    ∧ match tags with
      | VNone => ∃ l', tags' = VRef l' ∧ h !! l' = None
                       ∧ h' !! l' = Some (OList [])
      | _ => tags' = tags
      end.

(** ** Runs of [save_memory] *)

Section Run.

Variable console : nat → string → option write_error.
Variable network : nat → Request → post_result.
Variable candidates : list string.
Variable memory_text : string.
Variable tags : value.
Variable σ : state.

(** The call, and what it leaves behind. *)
Definition run : call_result * state :=
  save_memory_with console network candidates memory_text tags σ.

Definition run_result : call_result := run.1.
Definition run_store : gmap loc object := heap run.2.
Definition run_log : list exchange := attempts σ run.2.
Definition run_urls : list string := attempted_urls σ run.2.
Definition run_output : list string := printed σ run.2.

End Run.

(** ** The specification's own notions *)

(** The success class of HTTP statuses, 200 to 299. *)
Definition spec_success_class (status : Z) : bool :=
  bool_decide (200 ≤ status < 300).

(** The sentence of the specification on completed requests, as it is
    written: a completed attempt ends the run with success exactly when its
    status is in the success class. *)
Definition spec_success_class_ends_run : Prop :=
  ∀ (network : nat → Request → post_result) (candidates : list string)
    (memory_text : string) (tags : value) (σ : state)
    (i : nat) (request : Request) (response : Response),
    run_log accepting network candidates memory_text tags σ !! i
      = Some (request, Responded response) →
    spec_success_class (status_code response) = true
    ↔ run_result accepting network candidates memory_text tags σ = Returned true
      ∧ length (run_log accepting network candidates memory_text tags σ) = S i.


(** The two ports and the three paths the specification combines. *)
Definition spec_ports : list string := ["8050"; "8051"]%string.

Definition spec_paths : list string :=
  ["/api/save_memory"; "/sse/save_memory"; "/mem0/save_memory"]%string.

Definition spec_endpoints : list string :=
  path ← spec_paths;
  port ← spec_ports;
  [ "http://localhost:" +:+ port +:+ path ].

(** ** The loop when the stream may refuse a line *)

(** The result of a call, from the way its body ends. *)
Definition result_of_outcome (o : outcome unit) : call_result :=
  match o with
  | Return b => Returned b
  | Normal _ | Continue => ReturnedNone
  | Raise e => Propagated e
  end.

(** What the loop body does once the attempt is announced and the request
    made, [k] lines being on the output: how it ends and the lines it
    adds. *)
Definition after_request (console : nat → string → option write_error)
    (k : nat) (x : exchange) : outcome unit * list string :=
  let endpoint := url x.1 in
  match x.2 with
  | Responded response =>
      if bool_decide (status_code response = 200) then
        match console k ("Memory saved successfully via " +:+ endpoint) with
        | Some w => (Raise (exn_of_write_error w), [])
        | None =>
            match console (S k) ("Response: " +:+ text response) with
            | Some w =>
                (Raise (exn_of_write_error w),
                 [ "Memory saved successfully via " +:+ endpoint ])
            | None =>
                (Return true,
                 [ "Memory saved successfully via " +:+ endpoint;
                   "Response: " +:+ text response ])
            end
        end
      else (Normal tt, [])
  | Raised e =>
      if isinstance_RequestException e then
        match console k ("Error with " +:+ endpoint +:+ ": " +:+ str e) with
        | Some w => (Raise (exn_of_write_error w), [])
        | None => (Continue, [ "Error with " +:+ endpoint +:+ ": " +:+ str e ])
        end
      else (Raise e, [])
  end.

(** The loop takes the next element after these two. *)
Definition goes_on (o : outcome unit) : bool :=
  match o with
  | Normal _ | Continue => true
  | Return _ | Raise _ => false
  end.

Section Stream.

Variable console : nat → string → option write_error.
Variable network : nat → Request → post_result.
Variable body : json.

(** [walk n k candidates log out o]: from request number [n] and with [k]
    lines on the output, walking [candidates] makes the exchanges [log],
    writes the lines [out] and leaves the loop by [o]. *)
Inductive walk
  : nat → nat → list string → list exchange → list string
    → outcome unit → Prop :=
| walk_done n k :
    walk n k [] [] [] (Normal tt)
| walk_mute n k endpoint rest w :
    console k ("Trying endpoint: " +:+ endpoint) = Some w →
    walk n k (endpoint :: rest) [] [] (Raise (exn_of_write_error w))
| walk_on n k endpoint rest o lines log out o' :
    console k ("Trying endpoint: " +:+ endpoint) = None →
    after_request console (S k) (exchange_at network body n endpoint)
      = (o, lines) →
    goes_on o = true →
    walk (S n) (S k + length lines) rest log out o' →
    walk n k (endpoint :: rest)
      (exchange_at network body n endpoint :: log)
      (("Trying endpoint: " +:+ endpoint) :: lines ++ out) o'
| walk_off n k endpoint rest o lines :
    console k ("Trying endpoint: " +:+ endpoint) = None →
    after_request console (S k) (exchange_at network body n endpoint)
      = (o, lines) →
    goes_on o = false →
    walk n k (endpoint :: rest)
      [exchange_at network body n endpoint]
      (("Trying endpoint: " +:+ endpoint) :: lines) o.

End Stream.

(** The handler of [except Exception], [k] lines being on the output. *)
Definition catch_all (console : nat → string → option write_error)
    (k : nat) (e : exn) : outcome unit * list string :=
  match console k ("Error: " +:+ str e) with
  | None => (Return false, [ "Error: " +:+ str e ])
  | Some w => (Raise (exn_of_write_error w), [])
  end.

(** How [attemptDelivery] closes after the loop left by [o], [k] lines
    being on the output. *)
Definition closing (console : nat → string → option write_error)
    (k : nat) (o : outcome unit) : outcome unit * list string :=
  match o with
  | Normal _ =>
      match console k "Failed to save memory to any endpoint" with
      | None => (Return false, [ "Failed to save memory to any endpoint" ])
      | Some w => catch_all console k (exn_of_write_error w)
      end
  | Continue => (Continue, [])
  | Return b => (Return b, [])
  | Raise e => catch_all console k e
  end.

(** The stream takes the two lines that report the success of [x]. *)
Definition report_accepted (console : nat → string → option write_error)
    (x : exchange) : Prop :=
  match x.2 with
  | Responded response =>
      ∀ k, console k ("Memory saved successfully via " +:+ url x.1) = None
           ∧ console k ("Response: " +:+ text response) = None
  | Raised _ => True
  end.

(** The sentence of the specification on the first success, as it is
    written, for every stream and every network. *)
Definition spec_first_success_returns_true : Prop :=
  ∀ (console : nat → string → option write_error)
    (network : nat → Request → post_result) (candidates : list string)
    (memory_text : string) (tags : value) (σ : state) (k : nat)
    (x : exchange),
    (1 ≤ k)%nat →
    run_log console network candidates memory_text tags σ !! (k - 1)%nat
      = Some x →
    succeeded x = true →
    (∀ i y, (i < k - 1)%nat →
            run_log console network candidates memory_text tags σ !! i
              = Some y →
            succeeded y = false) →
    run_urls console network candidates memory_text tags σ
      = take k candidates
    ∧ length (run_log console network candidates memory_text tags σ) = k
    ∧ run_result console network candidates memory_text tags σ
      = Returned true.

(** The sentence of the specification on exceptions, as it is written: the
    call returns, whatever happens. *)
Definition spec_no_exception_escapes : Prop :=
  ∀ (console : nat → string → option write_error)
    (network : nat → Request → post_result) (candidates : list string)
    (memory_text : string) (tags : value) (σ : state),
    ∃ b, run_result console network candidates memory_text tags σ
         = Returned b.

(** ** Networks used as examples *)

Module Scenario.

Definition refused : exn :=
  {| cls := ConnectionError; str := "Connection refused" |}.


(** The first two requests are refused, the third is answered 200. *)
Definition third_saves (n : nat) (_ : Request) : post_result :=
  if (n <? 2)%nat then Raised refused
  else Responded {| status_code := 200; text := "saved" |}.

(** Every request is answered with the same status. *)
Definition always (status : Z) (n : nat) (_ : Request) : post_result :=
  Responded {| status_code := status; text := "" |}.

(** Every request is refused. *)
Definition all_refused (n : nat) (_ : Request) : post_result :=
  Raised refused.


Definition abc : list string := ["A"; "B"; "C"]%string.

(** A stream that encodes to ASCII, and an answer that is not ASCII. *)
Definition is_ascii (s : string) : bool :=
  forallb (λ c, (Ascii.nat_of_ascii c <? 128)%nat) (String.list_ascii_of_string s).

Definition ascii_only (k : nat) (s : string) : option write_error :=
  if is_ascii s then None
  else Some (EncodeError "'ascii' codec can't encode character").

Definition saved_in_french (n : nat) (_ : Request) : post_result :=
  Responded {| status_code := 200; text := "enregistré" |}.

(** A stream whose reader has gone away. *)
Definition closed_pipe (k : nat) (s : string) : option write_error :=
  Some (PipeError "[Errno 32] Broken pipe").

(** A caller's store with one list of tags at location 7. *)
Definition caller : state :=
  {| heap := {[ 7%nat := OList ["vercel"; "auth"]%string ]};
     stdout := ["earlier output"%string];
     wire := [] |}.

End Scenario.

(** ** The script run as a program *)

(** An expression statement [f(...)]: the value of the call is dropped, an
    exception it lets out goes on. *)
Definition expr_stmt (f : state → call_result * state) : M unit := λ σ,
  match f σ with
  | (Propagated e, σ') => (Raise e, σ')
  | (_, σ') => (Normal tt, σ')
  end.

(** The two literals of the [__main__] block. *)
Definition main_memory_text : string :=
  "Authentication Bypass Pattern for Vercel Deployments: 
1. The AUTH_BYPASS_ENABLED environment variable controls authentication bypass behavior
2. Disabling middleware with an empty export prevents authentication checks
3. Creating a credential-based public auth provider with fixed anonymous user details
4. Auto-detecting vercel.app deployments in SessionProvider and enabling mock sessions
5. Static HTML fallback pages provide a last resort when all else fails
6. Vercel.json rewrites can redirect authentication routes to the main page
7. Clean build process by removing package locks and caches ensures fresh deployments".

Definition main_tags : list string :=
  ["vercel"; "deployment"; "auth"; "bypass"; "nextjs"; "middleware"]%string.

(** The block under [if __name__ == "__main__":]. *)
Definition main (console : nat → string → option write_error)
    (network : nat → Request → post_result) : M unit :=
  tags ← alloc (OList main_tags);
  expr_stmt (save_memory console network main_memory_text tags).

(** * Proofs *)

(** ** The loop body and the loop *)

Section Loop.

Variable network : nat → Request → post_result.

Lemma attempt_run payload endpoint σ :
  let x := exchange_at network (json_of_payload (heap σ) payload)
             (length (wire σ)) endpoint in
  attempt accepting network payload endpoint σ
  = (attempt_outcome x, extend σ (attempt_lines x) [x]).
Proof.
  unfold attempt, try_except, requests_post, exchange_at, attempt_outcome,
    attempt_lines, extend, print, accepting, return_, continue, pass.
  unfold mbind, M_bind, mret, M_ret; simpl.
  destruct (network _ _) as [response|e]; simpl.
  - destruct (bool_decide _); simpl; by rewrite <- ?(assoc_L (++)).
  - destruct (isinstance_RequestException e); simpl;
      by rewrite <- ?(assoc_L (++)).
Qed.

Lemma for_in_attempt_run payload candidates σ :
  ∃ log o,
    probing network (json_of_payload (heap σ) payload)
      (length (wire σ)) candidates log o
    ∧ for_in candidates (attempt accepting network payload) σ
      = (o, extend σ (concat (attempt_lines <$> log)) log).
Proof.
  revert σ. induction candidates as [|endpoint rest IH]; intros σ.
  - exists [], (Normal tt). split; [constructor|].
    destruct σ; simpl. unfold mret, M_ret, extend; simpl.
    by rewrite !(right_id_L [] (++)).
  - simpl. rewrite attempt_run.
    set (x := exchange_at _ _ _ _).
    destruct (recoverable x) eqn:Hrec.
    + destruct (IH (extend σ (attempt_lines x) [x])) as (log & o & Hp & Hrun).
      simpl in Hp. rewrite length_app in Hp; simpl in Hp.
      replace (length (wire σ) + 1)%nat with (S (length (wire σ))) in Hp by lia.
      exists (x :: log), o. split; [by constructor|].
      etrans; [|etrans; [exact Hrun|]].
      * unfold attempt_outcome, recoverable in *.
        destruct (x.2) as [response|e].
        -- by destruct (bool_decide _).
        -- by rewrite Hrec.
      * f_equal. unfold extend; simpl. f_equal.
        -- by rewrite <- (assoc_L (++)).
        -- by rewrite <- (assoc_L (++)).
    + unfold recoverable, attempt_outcome in *.
      destruct (x.2) as [response|e] eqn:Hx.
      * destruct (bool_decide _) eqn:Hs; [|done].
        exists [x], (Return true). split.
        -- apply probing_success. unfold succeeded. fold x. by rewrite Hx.
        -- simpl. by rewrite (right_id_L [] (++)).
      * rewrite Hrec. exists [x], (Raise e). split.
        -- by apply probing_unexpected.
        -- simpl. by rewrite (right_id_L [] (++)).
Qed.

End Loop.

Section ProbingFacts.

Variable network : nat → Request → post_result.
Variable body : json.

(** The loop is left in one of three ways only. *)
Lemma probing_outcome n candidates log o :
  probing network body n candidates log o →
  o = Normal tt ∨ o = Return true
  ∨ ∃ e, o = Raise e ∧ isinstance_RequestException e = false.
Proof. induction 1; eauto. Qed.

End ProbingFacts.

(** The store and the payload before the loop *)

Lemma alloc_heap o σ :
  ∃ l, heap σ !! l = None
       ∧ alloc o σ = (Normal (VRef l),
                      {| heap := <[l := o]> (heap σ);
                         stdout := stdout σ; wire := wire σ |}).
Proof.
  exists (fresh (dom (heap σ))). split; [|done].
  apply not_elem_of_dom, is_fresh.
Qed.

Lemma save_memory_body_run console network candidates memory_text tags σ :
  ∃ h' payload,
    heap σ ⊆ h'
    ∧ holds_payload (heap σ) h' memory_text tags payload
    ∧ (live (heap σ) tags →
       json_of_payload h' payload = payload_json (heap σ) memory_text tags)
    ∧ save_memory_body console network candidates memory_text tags σ
      = attemptDelivery console network payload candidates
          {| heap := h'; stdout := stdout σ; wire := wire σ |}.
Proof.
  unfold save_memory_body, mbind, M_bind.
  destruct tags as [|s|l].
  - destruct (alloc_heap (OList []) σ) as (l1 & Hl1 & ->).
    set (σ1 := {| heap := <[l1:=OList []]> (heap σ) |}).
    destruct (alloc_heap (ODict [("memory"%string, VStr memory_text);
                                 ("tags"%string, VRef l1)]) σ1)
      as (l2 & Hl2 & ->).
    subst σ1; cbn [heap] in Hl2.
    assert (l2 ≠ l1) by (intros ->; by rewrite lookup_insert_eq in Hl2).
    rewrite lookup_insert_ne in Hl2 by done.
    eexists _, (VRef l2). split; [|split; [|split; [|done]]]; cbn [heap].
    + trans (<[l1:=OList []]> (heap σ)); [by apply insert_subseteq|].
      apply insert_subseteq. by rewrite lookup_insert_ne.
    + exists l2, (VRef l1). split; [done|]. split; [done|].
      split; [by rewrite lookup_insert_eq|].
      exists l1. split; [done|]. split; [done|].
      by rewrite lookup_insert_ne, lookup_insert_eq.
    + intros _. unfold payload_json. cbn [json_of_payload]. rewrite lookup_insert_eq. cbn [map fst snd json_of_value].
      by rewrite lookup_insert_ne, lookup_insert_eq.
  - unfold mret at 1, M_ret at 1.
    destruct (alloc_heap (ODict [("memory"%string, VStr memory_text);
                                 ("tags"%string, VStr s)]) σ)
      as (l2 & Hl2 & ->).
    eexists _, (VRef l2). split; [|split; [|split; [|done]]]; cbn [heap] in *.
    + by apply insert_subseteq.
    + exists l2, (VStr s). by rewrite lookup_insert_eq.
    + intros _. unfold payload_json. cbn [json_of_payload]. by rewrite lookup_insert_eq.
  - unfold mret at 1, M_ret at 1.
    destruct (alloc_heap (ODict [("memory"%string, VStr memory_text);
                                 ("tags"%string, VRef l)]) σ)
      as (l2 & Hl2 & ->).
    eexists _, (VRef l2). split; [|split; [|split; [|done]]]; cbn [heap] in *.
    + by apply insert_subseteq.
    + exists l2, (VRef l). by rewrite lookup_insert_eq.
    + intros [o Ho]. unfold payload_json. cbn [json_of_payload]. rewrite lookup_insert_eq. cbn [map fst snd json_of_value].
      assert (l2 ≠ l) by (intros ->; congruence).
      by rewrite lookup_insert_ne.
Qed.

Section Call.

Variable network : nat → Request → post_result.

Lemma attemptDelivery_run payload candidates σ :
  ∃ log o,
    probing network (json_of_payload (heap σ) payload)
      (length (wire σ)) candidates log o
    ∧ attemptDelivery accepting network payload candidates σ
      = (Return (closing_result o),
         extend σ (concat (attempt_lines <$> log) ++ closing_lines o) log).
Proof.
  destruct (for_in_attempt_run network payload candidates σ)
    as (log & o & Hp & Hrun).
  exists log, o. split; [done|].
  unfold attemptDelivery, try_except, mbind, M_bind. rewrite Hrun.
  destruct (probing_outcome _ _ _ _ _ _ Hp) as [->|[->|(e & -> & _)]];
    unfold extend, print, accepting, return_; simpl.
  - by rewrite (assoc_L (++)).
  - by rewrite (right_id_L [] (++)).
  - by rewrite (assoc_L (++)).
Qed.

(** Every call of [save_memory] runs to a [return], and this is all it
    does to the state. *)
Lemma save_memory_with_run candidates memory_text tags σ :
  ∃ h' payload log o,
    heap σ ⊆ h'
    ∧ holds_payload (heap σ) h' memory_text tags payload
    ∧ (live (heap σ) tags →
       json_of_payload h' payload = payload_json (heap σ) memory_text tags)
    ∧ probing network (json_of_payload h' payload)
        (length (wire σ)) candidates log o
    ∧ save_memory_with accepting network candidates memory_text tags σ
      = (Returned (closing_result o),
         {| heap := h';
            stdout := stdout σ ++ concat (attempt_lines <$> log)
                        ++ closing_lines o;
            wire := wire σ ++ log |}).
Proof.
  destruct (save_memory_body_run accepting network candidates memory_text
              tags σ)
    as (h' & payload & Hsub & Hholds & Hjson & Hbody).
  set (σ1 := {| heap := h'; stdout := stdout σ; wire := wire σ |}) in *.
  destruct (attemptDelivery_run payload candidates σ1)
    as (log & o & Hp & Hrun).
  exists h', payload, log, o.
  split; [done|]. split; [done|]. split; [done|]. split; [done|].
  unfold save_memory_with, call. by rewrite Hbody, Hrun.
Qed.

End Call.

(** ** What the loop's walk looks like *)

Section Walk.

Variable network : nat → Request → post_result.
Variable body : json.

Abbreviation probing := (probing network body).
Abbreviation exchange_at := (exchange_at network body).

Lemma succeeded_not_recoverable x :
  succeeded x = true → recoverable x = false.
Proof.
  unfold succeeded, recoverable. destruct (x.2); [|done].
  by intros ->.
Qed.

Lemma unexpected_not_recoverable x :
  unexpected x = true → recoverable x = false.
Proof.
  unfold unexpected, recoverable. destruct (x.2); [done|].
  by destruct (isinstance_RequestException e).
Qed.


(** The [i]-th exchange is the request to the [i]-th candidate, answered
    by the network as its request number [n + i]. *)
Lemma probing_lookup n candidates log o i x :
  probing n candidates log o →
  log !! i = Some x →
  ∃ endpoint, candidates !! i = Some endpoint
              ∧ x = exchange_at (n + i) endpoint.
Proof.
  intros Hp. revert i. induction Hp as
    [n|n endpoint rest log o Hrec Hp IH|n endpoint rest Hs
    |n endpoint rest e He Hne]; intros i Hi.
  - done.
  - destruct i as [|i]; simpl in *.
    + exists endpoint. split; [done|]. rewrite Nat.add_0_r. congruence.
    + destruct (IH _ Hi) as (ep & ? & ->). exists ep. split; [done|].
      by rewrite Nat.add_succ_r.
  - destruct i as [|i]; simpl in *; [|done].
    exists endpoint. split; [done|]. rewrite Nat.add_0_r. congruence.
  - destruct i as [|i]; simpl in *; [|done].
    exists endpoint. split; [done|]. rewrite Nat.add_0_r. congruence.
Qed.

Lemma probing_length n candidates log o :
  probing n candidates log o → (length log ≤ length candidates)%nat.
Proof. induction 1; simpl; lia. Qed.

(** The endpoints attempted are an initial segment of the candidates. *)
Lemma probing_urls n candidates log o :
  probing n candidates log o →
  (λ x : exchange, url x.1) <$> log = take (length log) candidates.
Proof. induction 1; simpl; by f_equal. Qed.

(** Every exchange but the last was a failure the loop recovers from. *)
Lemma probing_earlier n candidates log o i x :
  probing n candidates log o →
  log !! i = Some x → (S i < length log)%nat → recoverable x = true.
Proof.
  intros Hp. revert i. induction Hp as
    [n|n endpoint rest log o Hrec Hp IH|n endpoint rest Hs
    |n endpoint rest e He Hne]; intros i Hi Hlt; simpl in *.
  - done.
  - destruct i as [|i]; simpl in *; [congruence|].
    apply (IH i); [done|lia].
  - lia.
  - lia.
Qed.

(** After a failure the loop recovers from, the next candidate, if there
    is one, is attempted. *)
Lemma probing_proceeds n candidates log o i x :
  probing n candidates log o →
  log !! i = Some x → recoverable x = true →
  (S i < length candidates)%nat → (S i < length log)%nat.
Proof.
  intros Hp. revert i. induction Hp as
    [n|n endpoint rest log o Hrec Hp IH|n endpoint rest Hs
    |n endpoint rest e He Hne]; intros i Hi Hx Hlt; simpl in *.
  - done.
  - destruct i as [|i]; simpl in *.
    + inversion Hp; subst; simpl in *; lia.
    + specialize (IH i Hi Hx). lia.
  - destruct i as [|i]; simpl in *; [|done].
    apply succeeded_not_recoverable in Hs. congruence.
  - destruct i as [|i]; simpl in *; [|done].
    assert (unexpected (exchange_at n endpoint) = true)
      by (unfold unexpected; simpl; by rewrite He, Hne).
    assert (recoverable (exchange_at n endpoint) = false)
      by by apply unexpected_not_recoverable.
    congruence.
Qed.

(** The loop runs off the end exactly when every candidate was attempted
    and every attempt was a failure it recovers from. *)
Lemma probing_exhausted_inv n candidates log :
  probing n candidates log (Normal tt) →
  length log = length candidates
  ∧ Forall (λ x, recoverable x = true) log.
Proof.
  remember (Normal tt) as o eqn:Ho. induction 1; simplify_eq.
  - by split.
  - destruct IHprobing as [Hlen ?]; [done|]. split; [by simpl; f_equal|].
    by constructor.
Qed.

Lemma probing_success_inv n candidates log :
  probing n candidates log (Return true) →
  ∃ x, last log = Some x ∧ succeeded x = true.
Proof.
  remember (Return true) as o eqn:Ho. induction 1; simplify_eq.
  - destruct IHprobing as (x & Hl & ?); [done|]. exists x. split; [|done].
    destruct log; [done|]. done.
  - by eexists.
Qed.

Lemma probing_unexpected_inv n candidates log e :
  probing n candidates log (Raise e) →
  ∃ x, last log = Some x ∧ x.2 = Raised e
       ∧ isinstance_RequestException e = false.
Proof.
  remember (Raise e) as o eqn:Ho. induction 1; simplify_eq.
  - destruct IHprobing as (x & Hl & ?); [done|]. exists x. split; [|done].
    destruct log; [done|]. done.
  - by eexists.
Qed.

(** All recoverable: the loop runs off the end. *)
Lemma probing_all_recoverable n candidates log o :
  probing n candidates log o →
  Forall (λ x, recoverable x = true) log →
  o = Normal tt.
Proof.
  induction 1 as
    [n|n endpoint rest log o Hrec Hp IH|n endpoint rest Hs
    |n endpoint rest e He Hne]; intros Hall.
  - done.
  - apply IH. by inversion Hall.
  - apply Forall_cons_1 in Hall as [Hx _].
    apply succeeded_not_recoverable in Hs. congruence.
  - apply Forall_cons_1 in Hall as [Hx _].
    unfold recoverable in Hx. rewrite He, Hne in Hx. done.
Qed.

(** A successful exchange is the last one, and the loop is left by
    [return True]. *)
Lemma probing_succeeded_last n candidates log o i x :
  probing n candidates log o →
  log !! i = Some x → succeeded x = true →
  length log = S i ∧ o = Return true.
Proof.
  intros Hp Hi Hs.
  assert (Hlen : length log = S i).
  { apply lookup_lt_Some in Hi as Hlt.
    destruct (decide (S i < length log)%nat) as [Hlt'|]; [|lia].
    pose proof (probing_earlier _ _ _ _ _ _ Hp Hi Hlt') as Hr.
    apply succeeded_not_recoverable in Hs. congruence. }
  split; [done|].
  assert (Hlast : last log = Some x).
  { rewrite last_lookup, Hlen. done. }
  destruct (probing_outcome _ _ _ _ _ _ Hp) as [->|[->|(e & -> & _)]].
  - apply probing_exhausted_inv in Hp as [_ Hall].
    rewrite Forall_forall in Hall.
    assert (recoverable x = true).
    { apply Hall. by eapply list_elem_of_lookup_2. }
    apply succeeded_not_recoverable in Hs. congruence.
  - done.
  - apply probing_unexpected_inv in Hp as (y & Hy & He & _).
    rewrite Hlast in Hy. simplify_eq. unfold succeeded in Hs.
    by rewrite He in Hs.
Qed.

End Walk.

Section RunView.

Variable network : nat → Request → post_result.
Variable candidates : list string.
Variable memory_text : string.
Variable tags : value.
Variable σ : state.

Abbreviation run := (run accepting network candidates memory_text tags σ).
Abbreviation run_result := (run_result accepting network candidates memory_text tags σ).
Abbreviation run_store := (run_store accepting network candidates memory_text tags σ).
Abbreviation run_log := (run_log accepting network candidates memory_text tags σ).
Abbreviation run_urls := (run_urls accepting network candidates memory_text tags σ).
Abbreviation run_output := (run_output accepting network candidates memory_text tags σ).

Lemma run_view :
  ∃ payload o,
    probing network (json_of_payload run_store payload)
      (length (wire σ)) candidates run_log o
    ∧ run_result = Returned (closing_result o)
    ∧ run_output = concat (attempt_lines <$> run_log) ++ closing_lines o
    ∧ heap σ ⊆ run_store
    ∧ stdout run.2 = stdout σ ++ run_output
    ∧ holds_payload (heap σ) run_store memory_text tags payload
    ∧ (live (heap σ) tags →
       json_of_payload run_store payload
       = payload_json (heap σ) memory_text tags).
Proof.
  destruct (save_memory_with_run network candidates memory_text tags σ)
    as (h' & payload & log & o & Hsub & Hholds & Hj & Hp & Hrun).
  unfold run_result, run_store, run_log, run_output, run, attempts, printed.
  rewrite Hrun; simpl. rewrite !drop_app_length. by exists payload, o.
Qed.

Lemma run_urls_log : run_urls = (λ x : exchange, url x.1) <$> run_log.
Proof. done. Qed.

End RunView.

Section ReturnValue.

Variable network : nat → Request → post_result.
Variable body : json.

Lemma probing_result n candidates log o :
  probing network body n candidates log o →
  existsb succeeded log = closing_result o.
Proof.
  induction 1 as
    [n|n endpoint rest log o Hrec Hp IH|n endpoint rest Hs
    |n endpoint rest e He Hne]; simpl.
  - done.
  - rewrite IH. destruct (succeeded _) eqn:Hs; [|done].
    apply succeeded_not_recoverable in Hs. congruence.
  - by rewrite Hs.
  - unfold succeeded. by rewrite He.
Qed.

Lemma probing_unexpected_no_success n candidates log o :
  probing network body n candidates log o →
  existsb unexpected log && existsb succeeded log = false.
Proof.
  induction 1 as
    [n|n endpoint rest log o Hrec Hp IH|n endpoint rest Hs
    |n endpoint rest e He Hne]; simpl.
  - done.
  - destruct (succeeded _) eqn:Hs.
    { apply succeeded_not_recoverable in Hs. congruence. }
    destruct (unexpected _) eqn:Hu.
    { apply unexpected_not_recoverable in Hu. congruence. }
    done.
  - unfold unexpected, succeeded in *.
    destruct (_.2); [|done]. by rewrite Hs.
  - unfold succeeded. rewrite He. by rewrite !andb_false_r.
Qed.

Lemma probing_nil n log o :
  probing network body n [] log o → log = [] ∧ o = Normal tt.
Proof. by inversion 1. Qed.

End ReturnValue.

(** ** Standard output and requests *)

Lemma probing_requests network body n candidates log o :
  probing network body n candidates log o →
  Forall (λ x : exchange, x.1 = request_to body (url x.1)) log.
Proof. induction 1; repeat constructor; done. Qed.

(** Every request of a call carries the payload as the caller's store
    gives it. *)
Lemma requests_carry_payload network candidates memory_text tags σ :
  live (heap σ) tags →
  Forall (λ x : exchange,
            json_body x.1 = payload_json (heap σ) memory_text tags)
    (run_log accepting network candidates memory_text tags σ).
Proof.
  intros Hlive.
  destruct (run_view network candidates memory_text tags σ)
    as (payload & o & Hp & _ & _ & _ & _ & _ & Hj).
  eapply Forall_impl; [apply (probing_requests _ _ _ _ _ _ Hp)|].
  intros x ->. simpl. by apply Hj.
Qed.

Lemma last_snoc {A} (l : list A) i x :
  l !! i = Some x → length l = S i → l = take i l ++ [x].
Proof.
  intros Hi Hlen. rewrite <- (take_S_r _ _ _ Hi).
  by rewrite <- Hlen, firstn_all.
Qed.

Lemma probing_nonempty network body n endpoint rest log o :
  probing network body n (endpoint :: rest) log o → log ≠ [].
Proof. by inversion 1. Qed.

(** The walk stops before the end of the list only at an answer 200 or at
    an error that is not a [RequestException]. *)
Lemma probing_stops_early network body n candidates log o :
  probing network body n candidates log o →
  length log = length candidates
  ∨ ∃ x, last log = Some x ∧ (succeeded x = true ∨ unexpected x = true).
Proof.
  intros Hp.
  destruct (probing_outcome _ _ _ _ _ _ Hp) as [->|[->|(e & -> & _)]].
  - left. by apply probing_exhausted_inv in Hp as [? _].
  - right. apply probing_success_inv in Hp as (x & ? & ?). eauto.
  - right. apply probing_unexpected_inv in Hp as (x & ? & Hx & He).
    exists x. split; [done|]. right. unfold unexpected. by rewrite Hx, He.
Qed.

(** ** The loop when the stream may refuse a line *)

Lemma write_error_not_request w :
  isinstance_RequestException (exn_of_write_error w) = false.
Proof. by destruct w. Qed.

Section StreamLoop.

Variable console : nat → string → option write_error.
Variable network : nat → Request → post_result.

Lemma attempt_on_run payload endpoint σ :
  attempt console network payload endpoint σ
  = match console (length (stdout σ)) ("Trying endpoint: " +:+ endpoint) with
    | Some w => (Raise (exn_of_write_error w), σ)
    | None =>
        let x := exchange_at network (json_of_payload (heap σ) payload)
                   (length (wire σ)) endpoint in
        let r := after_request console (S (length (stdout σ))) x in
        (r.1, extend σ (("Trying endpoint: " +:+ endpoint) :: r.2) [x])
    end.
Proof.
  unfold attempt, try_except, mbind, M_bind.
  unfold print at 1.
  destruct (console (length (stdout σ)) _) as [w|] eqn:Htry.
  { by rewrite write_error_not_request. }
  unfold requests_post, exchange_at, after_request, extend; cbn [heap stdout wire fst snd url].
  destruct (network _ _) as [response|e]; cbn [fst snd].
  - destruct (bool_decide _); [|done].
    unfold print at 1; cbn [heap stdout wire].
    rewrite length_app; cbn [length]. rewrite Nat.add_1_r.
    destruct (console (S (length (stdout σ))) _) as [w|].
    { by rewrite write_error_not_request. }
    unfold print; cbn [heap stdout wire].
    rewrite !length_app; cbn [length]. rewrite !Nat.add_1_r.
    destruct (console (S (S (length (stdout σ)))) _) as [w|].
    { rewrite write_error_not_request. by rewrite <- !(assoc_L (++)). }
    unfold return_. by rewrite <- !(assoc_L (++)).
  - destruct (isinstance_RequestException e); [|done].
    unfold print; cbn [heap stdout wire].
    rewrite length_app; cbn [length]. rewrite Nat.add_1_r.
    destruct (console (S (length (stdout σ))) _) as [w|]; [done|].
    unfold continue. by rewrite <- !(assoc_L (++)).
Qed.

Lemma for_in_walk payload candidates σ :
  ∃ log out o,
    walk console network (json_of_payload (heap σ) payload)
      (length (wire σ)) (length (stdout σ)) candidates log out o
    ∧ for_in candidates (attempt console network payload) σ
      = (o, extend σ out log).
Proof.
  revert σ. induction candidates as [|endpoint rest IH]; intros σ.
  - exists [], [], (Normal tt). split; [constructor|].
    destruct σ; unfold mret, M_ret, extend; simpl.
    by rewrite !(right_id_L [] (++)).
  - simpl. rewrite attempt_on_run.
    destruct (console (length (stdout σ)) _) as [w|] eqn:Htry.
    { exists [], [], (Raise (exn_of_write_error w)).
      split; [by constructor|].
      destruct σ; unfold extend; simpl. by rewrite !(right_id_L [] (++)). }
    set (x := exchange_at _ _ _ _). cbv zeta.
    destruct (after_request console (S (length (stdout σ))) x)
      as [o lines] eqn:Hafter.
    cbn [fst snd].
    set (σ1 := extend σ (("Trying endpoint: " +:+ endpoint) :: lines) [x]).
    destruct (goes_on o) eqn:Hgo.
    + destruct (IH σ1) as (log & out & o' & Hw & Hrun).
      subst σ1. cbn [extend heap stdout wire] in Hw.
      rewrite !length_app in Hw. cbn [length] in Hw.
      replace (length (wire σ) + 1)%nat with (S (length (wire σ))) in Hw
        by lia.
      replace (length (stdout σ) + S (length lines))%nat
        with (S (length (stdout σ)) + length lines)%nat in Hw by lia.
      exists (x :: log), (("Trying endpoint: " +:+ endpoint) :: lines ++ out), o'.
      split; [by econstructor|].
      transitivity (for_in rest (attempt console network payload)
                      (extend σ (("Trying endpoint: " +:+ endpoint) :: lines)
                         [x])).
      { destruct o; simpl in Hgo; try discriminate Hgo; done. }
      rewrite Hrun. f_equal. unfold extend; cbn [heap stdout wire].
      f_equal.
      * rewrite <- (assoc_L (++)). done.
      * by rewrite <- (assoc_L (++)).
    + exists [x], (("Trying endpoint: " +:+ endpoint) :: lines), o.
      split; [by econstructor|]. by destruct o.
Qed.

Lemma after_request_off k x o lines :
  after_request console k x = (o, lines) →
  goes_on o = false →
  o = Return true ∨ ∃ e, o = Raise e.
Proof.
  unfold after_request. intros Hafter Hgo.
  destruct o as [[]| |[]|e]; simpl in Hgo; try discriminate Hgo; eauto.
  repeat case_match; simplify_eq.
Qed.

Lemma walk_outcome body n k candidates log out o :
  walk console network body n k candidates log out o →
  o = Normal tt ∨ o = Return true ∨ ∃ e, o = Raise e.
Proof.
  induction 1 as [| | |n k endpoint rest o lines Htry Hafter Hgo]; eauto.
  destruct (after_request_off _ _ _ _ Hafter Hgo) as [->|[e ->]]; eauto.
Qed.

Lemma attemptDelivery_on_run payload candidates σ :
  ∃ log out o,
    walk console network (json_of_payload (heap σ) payload)
      (length (wire σ)) (length (stdout σ)) candidates log out o
    ∧ attemptDelivery console network payload candidates σ
      = ((closing console (length (stdout σ) + length out) o).1,
         extend σ
           (out ++ (closing console (length (stdout σ) + length out) o).2)
           log).
Proof.
  destruct (for_in_walk payload candidates σ) as (log & out & o & Hw & Hrun).
  exists log, out, o. split; [done|].
  unfold attemptDelivery, try_except, mbind, M_bind. rewrite Hrun.
  destruct (walk_outcome _ _ _ _ _ _ _ Hw) as [->|[->|[e ->]]];
    unfold closing, catch_all, print, return_, extend, isinstance_Exception;
    cbn [heap stdout wire]; rewrite ?length_app.
  - destruct (console _ "Failed to save memory to any endpoint") as [w|].
    + cbn [heap stdout wire]. rewrite length_app.
      destruct (console _ _) as [w'|]; cbn [fst snd heap stdout wire].
      * by rewrite (right_id_L [] (++)).
      * by rewrite (assoc_L (++)).
    + cbn [fst snd]. by rewrite (assoc_L (++)).
  - cbn [fst snd]. by rewrite (right_id_L [] (++)).
  - destruct (console _ _) as [w'|]; cbn [fst snd heap stdout wire].
    + by rewrite (right_id_L [] (++)).
    + by rewrite (assoc_L (++)).
Qed.

End StreamLoop.

Section StreamWalk.

Variable console : nat → string → option write_error.
Variable network : nat → Request → post_result.
Variable body : json.

Lemma after_request_on k x o lines :
  after_request console k x = (o, lines) →
  goes_on o = true → recoverable x = true.
Proof.
  unfold after_request, recoverable. intros Hafter Hgo.
  destruct (x.2) as [response|e].
  - destruct (bool_decide _); [|done].
    repeat case_match; by simplify_eq.
  - destruct (isinstance_RequestException e); [done|].
    by simplify_eq.
Qed.

Lemma after_request_return k x b lines :
  after_request console k x = (Return b, lines) →
  b = true
  ∧ ∃ response,
      x.2 = Responded response ∧ status_code response = 200
      ∧ lines = [ "Memory saved successfully via " +:+ url x.1;
                  "Response: " +:+ text response ].
Proof.
  unfold after_request. intros Hafter.
  destruct (x.2) as [response|e].
  - destruct (bool_decide (status_code response = 200)) eqn:Hs;
      [|simplify_eq].
    apply bool_decide_eq_true in Hs.
    repeat case_match; simplify_eq. eauto.
  - repeat case_match; simplify_eq.
Qed.

Lemma after_request_accepted k x :
  succeeded x = true → report_accepted console x →
  ∃ lines, after_request console k x = (Return true, lines).
Proof.
  unfold succeeded, report_accepted, after_request.
  destruct (x.2) as [response|e]; [|done].
  intros -> Hacc. destruct (Hacc k) as [-> _]. destruct (Hacc (S k)) as [_ ->].
  eauto.
Qed.

Lemma walk_lookup n k candidates log out o i x :
  walk console network body n k candidates log out o →
  log !! i = Some x →
  ∃ endpoint, candidates !! i = Some endpoint
              ∧ x = exchange_at network body (n + i) endpoint.
Proof.
  intros Hw. revert i. induction Hw as
    [n k|n k endpoint rest w Htry
    |n k endpoint rest o lines log out o' Htry Hafter Hgo Hw IH
    |n k endpoint rest o lines Htry Hafter Hgo]; intros i Hi.
  - done.
  - done.
  - destruct i as [|i]; simpl in *.
    + exists endpoint. split; [done|]. rewrite Nat.add_0_r. congruence.
    + destruct (IH _ Hi) as (ep & ? & ->). exists ep. split; [done|].
      by rewrite Nat.add_succ_r.
  - destruct i as [|i]; simpl in *; [|done].
    exists endpoint. split; [done|]. rewrite Nat.add_0_r. congruence.
Qed.

Lemma walk_length n k candidates log out o :
  walk console network body n k candidates log out o →
  (length log ≤ length candidates)%nat.
Proof. induction 1; simpl; lia. Qed.

Lemma walk_urls n k candidates log out o :
  walk console network body n k candidates log out o →
  (λ x : exchange, url x.1) <$> log = take (length log) candidates.
Proof. induction 1; simpl; by f_equal. Qed.

Lemma walk_requests n k candidates log out o :
  walk console network body n k candidates log out o →
  Forall (λ x : exchange, x.1 = request_to body (url x.1)) log.
Proof. induction 1; repeat constructor; done. Qed.

Lemma walk_earlier n k candidates log out o i x :
  walk console network body n k candidates log out o →
  log !! i = Some x → (S i < length log)%nat → recoverable x = true.
Proof.
  intros Hw. revert i. induction Hw as
    [n k|n k endpoint rest w Htry
    |n k endpoint rest o lines log out o' Htry Hafter Hgo Hw IH
    |n k endpoint rest o lines Htry Hafter Hgo]; intros i Hi Hlt;
    simpl in *; try lia.
  destruct i as [|i]; simpl in *.
  - simplify_eq. by eapply after_request_on.
  - apply (IH i); [done|lia].
Qed.

(** An exchange answered 200 is the last of the walk, whatever the stream
    does with the report. *)
Lemma walk_succeeded_last n k candidates log out o i x :
  walk console network body n k candidates log out o →
  log !! i = Some x → succeeded x = true → length log = S i.
Proof.
  intros Hw Hi Hs. apply lookup_lt_Some in Hi as Hlt.
  destruct (decide (S i < length log)%nat) as [Hlt'|]; [|lia].
  pose proof (walk_earlier _ _ _ _ _ _ _ _ Hw Hi Hlt') as Hr.
  apply succeeded_not_recoverable in Hs. congruence.
Qed.

(** The loop is left by [return] only after the report of a 200. *)
Lemma walk_return_inv n k candidates log out b :
  walk console network body n k candidates log out (Return b) →
  b = true
  ∧ ∃ x response earlier,
      last log = Some x ∧ x.2 = Responded response
      ∧ status_code response = 200
      ∧ out = earlier ++ [ "Memory saved successfully via " +:+ url x.1;
                           "Response: " +:+ text response ].
Proof.
  remember (Return b) as o' eqn:Ho. induction 1 as
    [n k|n k endpoint rest w Htry
    |n k endpoint rest o lines log out o' Htry Hafter Hgo Hw IH
    |n k endpoint rest o lines Htry Hafter Hgo]; simplify_eq.
  - destruct (IH eq_refl) as (-> & x & response & earlier & Hl & ? & ? & ->).
    split; [done|].
    exists x, response, (("Trying endpoint: " +:+ endpoint) :: lines ++ earlier).
    split; [|split; [done|split; [done|]]].
    + destruct log; [done|]. done.
    + simpl. by rewrite (assoc_L (++)).
  - destruct (after_request_return _ _ _ _ Hafter)
      as (-> & response & Hx & H200 & ->).
    split; [done|].
    exists (exchange_at network body n endpoint), response,
      ["Trying endpoint: " +:+ endpoint].
    done.
Qed.

(** When the stream takes the report, a 200 leaves the loop by
    [return True]. *)
Lemma walk_success_reached n k candidates log out o i x :
  walk console network body n k candidates log out o →
  log !! i = Some x → succeeded x = true → report_accepted console x →
  o = Return true.
Proof.
  intros Hw. revert i. induction Hw as
    [n k|n k endpoint rest w Htry
    |n k endpoint rest o lines log out o' Htry Hafter Hgo Hw IH
    |n k endpoint rest o lines Htry Hafter Hgo]; intros i Hi Hs Hacc.
  - done.
  - done.
  - destruct i as [|i]; simpl in *.
    + simplify_eq. pose proof (after_request_on _ _ _ _ Hafter Hgo).
      apply succeeded_not_recoverable in Hs. congruence.
    + by eapply IH.
  - destruct i as [|i]; simpl in *; [|done]. simplify_eq.
    destruct (after_request_accepted (S k) _ Hs Hacc) as [lines' Heq].
    congruence.
Qed.

End StreamWalk.

(** What the closing lines make of the way the loop was left. *)
Lemma closing_true console k o :
  result_of_outcome (closing console k o).1 = Returned true →
  o = Return true.
Proof.
  unfold closing, catch_all.
  destruct o as [[]| |[]|e]; repeat case_match; simpl; try done.
Qed.

Lemma call_result_of body σ :
  call body σ = (result_of_outcome (body σ).1, (body σ).2).
Proof. unfold call. destruct (body σ) as [[]]; done. Qed.

Section StreamRun.

Variable console : nat → string → option write_error.
Variable network : nat → Request → post_result.
Variable candidates : list string.
Variable memory_text : string.
Variable tags : value.
Variable σ : state.

Abbreviation run := (run console network candidates memory_text tags σ).
Abbreviation run_result :=
  (run_result console network candidates memory_text tags σ).
Abbreviation run_store :=
  (run_store console network candidates memory_text tags σ).
Abbreviation run_log := (run_log console network candidates memory_text tags σ).
Abbreviation run_urls :=
  (run_urls console network candidates memory_text tags σ).
Abbreviation run_output :=
  (run_output console network candidates memory_text tags σ).

(** A call of [save_memory] with any stream and any network. *)
Lemma run_on_view :
  ∃ payload out o,
    walk console network (json_of_payload run_store payload)
      (length (wire σ)) (length (stdout σ)) candidates run_log out o
    ∧ run_result
      = result_of_outcome
          (closing console (length (stdout σ) + length out) o).1
    ∧ run_output
      = out ++ (closing console (length (stdout σ) + length out) o).2
    ∧ heap σ ⊆ run_store
    ∧ holds_payload (heap σ) run_store memory_text tags payload.
Proof.
  destruct (save_memory_body_run console network candidates memory_text
              tags σ) as (h' & payload & Hsub & Hholds & _ & Hbody).
  set (σ1 := {| heap := h'; stdout := stdout σ; wire := wire σ |}) in *.
  destruct (attemptDelivery_on_run console network payload candidates σ1)
    as (log & out & o & Hw & Hrun).
  unfold run_result, run_store, run_log, run_output, run, attempts, printed,
    save_memory_with.
  rewrite call_result_of, Hbody, Hrun. cbn [fst snd extend heap stdout wire].
  rewrite !drop_app_length. by exists payload, out, o.
Qed.

End StreamRun.

(** * Properties of the prober *)

(** C1, as stated, fails: the first endpoint answers 200 with a body that
    an ASCII standard output cannot encode; the [print] of the body raises
    inside the outer [try] and the catch-all returns [False]. *)
Lemma first_success_counterexample : ¬ spec_first_success_returns_true.
Proof.
  intros Hspec.
  destruct (Hspec Scenario.ascii_only Scenario.saved_in_french endpoints
              "note"%string VNone initial 1%nat
              (request_to (payload_json ∅ "note" VNone)
                 "http://localhost:8050/api/save_memory",
               Responded {| status_code := 200; text := "enregistré" |}))
    as (_ & _ & Hres).
  - lia.
  - vm_compute. reflexivity.
  - reflexivity.
  - intros i y Hi. simpl in Hi. lia.
  - vm_compute in Hres. discriminate Hres.
Qed.

(** C1, amended.  If the first attempt that yields a success status is the
    one at position [k] (counted from 1), the call has attempted exactly
    the first [k] candidates, in the listed order and nothing after them;
    it returns [True] when the two lines that report the success are
    written. *)
Theorem first_success_ends_the_walk
    (console : nat → string → option write_error)
    (network : nat → Request → post_result) (candidates : list string)
    (memory_text : string) (tags : value) (σ : state) (k : nat) (x : exchange) :
  (1 ≤ k)%nat →
  run_log console network candidates memory_text tags σ !! (k - 1)%nat
    = Some x →
  succeeded x = true →
  (∀ i y, (i < k - 1)%nat →
          run_log console network candidates memory_text tags σ !! i
            = Some y →
          succeeded y = false) →
  run_urls console network candidates memory_text tags σ = take k candidates
  ∧ length (run_log console network candidates memory_text tags σ) = k
  ∧ (k ≤ length candidates)%nat
  ∧ (report_accepted console x →
     run_result console network candidates memory_text tags σ
     = Returned true).
Proof.
  intros Hk Hx Hs _.
  destruct (run_on_view console network candidates memory_text tags σ)
    as (payload & out & o & Hw & Hres & _).
  pose proof (walk_succeeded_last _ _ _ _ _ _ _ _ _ _ _ Hw Hx Hs) as Hlen.
  replace (S (k - 1)) with k in Hlen by lia.
  split; [|split; [done|split]].
  - unfold run_urls, attempted_urls.
    fold (run_log console network candidates memory_text tags σ).
    rewrite (walk_urls _ _ _ _ _ _ _ _ _ Hw). by rewrite Hlen.
  - rewrite <- Hlen. by eapply walk_length.
  - intros Hacc.
    pose proof (walk_success_reached _ _ _ _ _ _ _ _ _ _ _ Hw Hx Hs Hacc)
      as ->.
    by rewrite Hres.
Qed.

Lemma first_success_ends_the_walk_witness :
  run_urls accepting Scenario.third_saves Scenario.abc "note" VNone initial
    = ["A"; "B"; "C"]%string
  ∧ length (run_log accepting Scenario.third_saves Scenario.abc "note" VNone
              initial) = 3%nat
  ∧ (3 ≤ length Scenario.abc)%nat
  ∧ run_result accepting Scenario.third_saves Scenario.abc "note" VNone
      initial = Returned true.
Proof.
  destruct (first_success_ends_the_walk accepting Scenario.third_saves
              Scenario.abc "note" VNone initial 3
              (request_to (payload_json ∅ "note" VNone) "C",
               Responded {| status_code := 200; text := "saved" |}))
    as (Hurls & Hlen & Hle & Hret).
  - lia.
  - vm_compute. reflexivity.
  - reflexivity.
  - intros [|[|i]] y Hi; [| |lia]; vm_compute; intros [= <-]; reflexivity.
  - split; [exact Hurls|]. split; [exact Hlen|]. split; [exact Hle|].
    apply Hret. intros k. split; reflexivity.
Defined.




(** C3, as stated, fails: a response [201 Created] is in the success class
    and the loop goes on to the next endpoint all the same. *)
Lemma success_class_counterexample : ¬ spec_success_class_ends_run.
Proof.
  intros Hspec.
  destruct (Hspec (Scenario.always 201) endpoints "note"%string VNone initial
              0%nat
              (request_to (payload_json ∅ "note" VNone)
                 "http://localhost:8050/api/save_memory")
              {| status_code := 201; text := "" |}) as [Hgo _].
  - vm_compute. reflexivity.
  - destruct Hgo as [Hres _]; [reflexivity|].
    vm_compute in Hres. discriminate Hres.
Qed.

(** C3, amended.  A completed attempt is the success of the run exactly
    when its status is 200: then the loop stops at it, at the candidate of
    its position, and no other status makes the call return [True]; when
    the two lines naming the endpoint used and giving the raw response body
    are written, they end the output and the call returns [True]. *)
Theorem status_200_ends_run
    (console : nat → string → option write_error)
    (network : nat → Request → post_result) (candidates : list string)
    (memory_text : string) (tags : value) (σ : state)
    (i : nat) (request : Request) (response : Response) :
  run_log console network candidates memory_text tags σ !! i
    = Some (request, Responded response) →
  (status_code response = 200 →
   length (run_log console network candidates memory_text tags σ) = S i
   ∧ candidates !! i = Some (url request))
  ∧ (run_result console network candidates memory_text tags σ
       = Returned true →
     length (run_log console network candidates memory_text tags σ) = S i →
     status_code response = 200)
  ∧ (status_code response = 200 →
     report_accepted console (request, Responded response) →
     run_result console network candidates memory_text tags σ
       = Returned true
     ∧ ∃ earlier,
         run_output console network candidates memory_text tags σ
         = earlier ++ [ "Memory saved successfully via " +:+ url request;
                        "Response: " +:+ text response ]).
Proof.
  intros Hi.
  destruct (run_on_view console network candidates memory_text tags σ)
    as (payload & out & o & Hw & Hres & Hout & _).
  assert (Hsucc : status_code response = 200 →
                  succeeded (request, Responded response) = true).
  { intros H200. unfold succeeded; simpl. by apply bool_decide_eq_true. }
  split; [|split].
  - intros H200. split.
    + by eapply walk_succeeded_last; [done..|apply Hsucc].
    + destruct (walk_lookup _ _ _ _ _ _ _ _ _ _ _ Hw Hi) as (ep & Hep & Hx).
      rewrite Hep. f_equal. unfold exchange_at in Hx. by injection Hx as -> _.
  - intros Hret Hlen. rewrite Hres in Hret.
    apply closing_true in Hret as ->.
    destruct (walk_return_inv _ _ _ _ _ _ _ _ _ Hw)
      as (_ & x & r & earlier & Hlast & Hx & H200 & _).
    rewrite last_lookup, Hlen in Hlast.
    change (Init.Nat.pred (S i)) with i in Hlast.
    assert (x = (request, Responded response)) as -> by congruence.
    simpl in Hx. congruence.
  - intros H200 Hacc.
    pose proof (walk_success_reached _ _ _ _ _ _ _ _ _ _ _ Hw Hi
                  (Hsucc H200) Hacc) as ->.
    split; [by rewrite Hres|].
    pose proof (walk_succeeded_last _ _ _ _ _ _ _ _ _ _ _ Hw Hi
                  (Hsucc H200)) as Hlen.
    destruct (walk_return_inv _ _ _ _ _ _ _ _ _ Hw)
      as (_ & x & r & earlier & Hlast & Hx & _ & ->).
    rewrite last_lookup, Hlen in Hlast.
    change (Init.Nat.pred (S i)) with i in Hlast.
    assert (x = (request, Responded response)) as -> by congruence.
    simpl in Hx. injection Hx as <-.
    exists earlier. rewrite Hout. simpl. by rewrite (right_id_L [] (++)).
Qed.

Lemma status_200_ends_run_witness :
  run_result accepting Scenario.third_saves Scenario.abc "note" VNone initial
    = Returned true
  ∧ ∃ earlier,
      run_output accepting Scenario.third_saves Scenario.abc "note" VNone
        initial
      = earlier ++ [ "Memory saved successfully via C"%string;
                     "Response: saved"%string ].
Proof.
  destruct (status_200_ends_run accepting Scenario.third_saves Scenario.abc
              "note" VNone initial 2
              (request_to (payload_json ∅ "note" VNone) "C")
              {| status_code := 200; text := "saved" |}) as (_ & _ & Hgo).
  - vm_compute. reflexivity.
  - apply Hgo; [reflexivity|]. intros k. split; reflexivity.
Defined.

(** C4.  Where the code departs from the claim: when every endpoint
    answers with a status other than 200, every candidate is tried and the
    call returns [False], and the output holds the announcement of each
    attempt and the final diagnostic only; no line records the failure of
    any of these attempts. *)
Theorem non_200_answers_leave_no_record
    (network : nat → Request → post_result) (candidates : list string)
    (memory_text : string) (tags : value) (σ : state) :
  (∀ n request, ∃ response,
     network n request = Responded response
     ∧ status_code response ≠ 200) →
  run_result accepting network candidates memory_text tags σ
    = Returned false
  ∧ run_urls accepting network candidates memory_text tags σ = candidates
  ∧ run_output accepting network candidates memory_text tags σ
    = ((λ endpoint, "Trying endpoint: " +:+ endpoint) <$> candidates)
      ++ [ "Failed to save memory to any endpoint"%string ].
Proof.
  intros Hnet.
  destruct (run_view network candidates memory_text tags σ)
    as (payload & o & Hp & Hres & Hout & _).
  assert (Hquiet : Forall (λ x : exchange,
                             recoverable x = true
                             ∧ attempt_lines x
                               = ["Trying endpoint: " +:+ url x.1])
                     (run_log accepting network candidates memory_text
                        tags σ)).
  { apply Forall_lookup. intros i x Hi.
    destruct (probing_lookup _ _ _ _ _ _ _ _ Hp Hi) as (ep & _ & ->).
    unfold recoverable, attempt_lines, exchange_at. cbn [fst snd url].
    destruct (Hnet (length (wire σ) + i)%nat
                (request_to
                   (json_of_payload
                      (run_store accepting network candidates memory_text
                         tags σ) payload) ep))
      as (response & -> & Hne).
    by rewrite bool_decide_eq_false_2. }
  assert (Hall : Forall (λ x, recoverable x = true)
                   (run_log accepting network candidates memory_text
                      tags σ)).
  { eapply Forall_impl; [exact Hquiet|]. by intros x [? _]. }
  pose proof (probing_all_recoverable _ _ _ _ _ _ Hp Hall) as ->.
  destruct (probing_exhausted_inv _ _ _ _ _ Hp) as [Hlen _].
  assert (Hurls : run_urls accepting network candidates memory_text tags σ
                  = candidates).
  { rewrite run_urls_log, (probing_urls _ _ _ _ _ _ Hp), Hlen.
    by rewrite firstn_all. }
  split; [done|]. split; [done|].
  rewrite Hout. f_equal. rewrite <- Hurls at 2. rewrite run_urls_log.
  clear -Hquiet.
  induction Hquiet as [|x log [_ Hx] _ IH]; [done|].
  rewrite !fmap_cons, concat_cons, Hx, IH. done.
Qed.

Lemma non_200_answers_leave_no_record_witness :
  run_result accepting (Scenario.always 404) endpoints "note" VNone initial
    = Returned false
  ∧ run_urls accepting (Scenario.always 404) endpoints "note" VNone initial
    = endpoints
  ∧ run_output accepting (Scenario.always 404) endpoints "note" VNone initial
    = ((λ endpoint, "Trying endpoint: " +:+ endpoint) <$> endpoints)
      ++ [ "Failed to save memory to any endpoint"%string ].
Proof.
  apply (non_200_answers_leave_no_record (Scenario.always 404) endpoints
           "note" VNone initial).
  intros n request. exists {| status_code := 404; text := "" |}.
  split; [reflexivity|]. simpl. lia.
Defined.

(** C6, as stated, fails: when the reader of standard output has gone
    away, the [print] inside the catch-all handler raises in its turn and
    the exception leaves [save_memory]. *)
Lemma no_exception_escapes_counterexample : ¬ spec_no_exception_escapes.
Proof.
  intros Hspec.
  destruct (Hspec Scenario.closed_pipe Scenario.all_refused endpoints
              "note"%string VNone initial) as [b Hb].
  vm_compute in Hb. discriminate Hb.
Qed.

(** C6, amended.  Every exception raised by [requests.post] or by a
    [print] inside the [try] block is absorbed: the call returns a
    boolean, [True] only after an attempt answered 200 and [False] in
    every other case.  An exception leaves [save_memory] in one case only:
    the stream refused the line of the catch-all handler itself. *)
Theorem no_exception_escapes
    (console : nat → string → option write_error)
    (network : nat → Request → post_result) (candidates : list string)
    (memory_text : string) (tags : value) (σ : state) :
  (∃ b, run_result console network candidates memory_text tags σ
        = Returned b
        ∧ (b = true →
           ∃ x, last (run_log console network candidates memory_text tags σ)
                = Some x
                ∧ succeeded x = true))
  ∨ (∃ k e w,
       console k ("Error: " +:+ str e) = Some w
       ∧ run_result console network candidates memory_text tags σ
         = Propagated (exn_of_write_error w)).
Proof.
  destruct (run_on_view console network candidates memory_text tags σ)
    as (payload & out & o & Hw & Hres & _).
  rewrite Hres. set (k := (length (stdout σ) + length out)%nat).
  assert (Hcatch : ∀ e,
    (∃ b, result_of_outcome (catch_all console k e).1 = Returned b
          ∧ (b = true →
             ∃ x, last (run_log console network candidates memory_text
                          tags σ) = Some x ∧ succeeded x = true))
    ∨ (∃ k' e' w,
         console k' ("Error: " +:+ str e') = Some w
         ∧ result_of_outcome (catch_all console k e).1
           = Propagated (exn_of_write_error w))).
  { intros e. unfold catch_all.
    destruct (console k ("Error: " +:+ str e)) as [w|] eqn:Hc.
    - right. by exists k, e, w.
    - left. by exists false. }
  destruct (walk_outcome _ _ _ _ _ _ _ _ _ Hw) as [->|[->|[e ->]]];
    cbn [closing].
  - destruct (console k "Failed to save memory to any endpoint") as [w|].
    + apply Hcatch.
    + left. by exists false.
  - left. exists true. split; [done|]. intros _.
    destruct (walk_return_inv _ _ _ _ _ _ _ _ _ Hw)
      as (_ & x & r & earlier & Hlast & Hx & H200 & _).
    exists x. split; [done|]. unfold succeeded. rewrite Hx.
    by apply bool_decide_eq_true.
  - apply Hcatch.
Qed.

(** C7. With no candidate endpoint the call returns [False] at once: no
    request is made and the only line printed is the final diagnostic. *)
Theorem empty_list_fails_at_once
    (network : nat → Request → post_result)
    (memory_text : string) (tags : value) (σ : state) :
  run_result accepting network [] memory_text tags σ = Returned false
  ∧ run_log accepting network [] memory_text tags σ = []
  ∧ run_output accepting network [] memory_text tags σ
    = ["Failed to save memory to any endpoint"%string].
Proof.
  destruct (run_view network [] memory_text tags σ)
    as (j & o & Hp & Hres & Hout & _).
  apply probing_nil in Hp as [Hlog ->].
  rewrite Hres, Hout, Hlog. done.
Qed.

(** C8. The candidate list of [save_memory] is the six loopback URLs made
    of the ports 8050 and 8051 and the paths [/api/save_memory],
    [/sse/save_memory], [/mem0/save_memory], path by path.  A call tries
    them in this order from the first one: it makes at least one request,
    its requests go to the first endpoints of the list, each is a POST with
    a timeout of 5 seconds, and it stops before the sixth only at an answer
    200 or at an error that is not a [RequestException]. *)
Theorem six_endpoints_post_timeout_5
    (network : nat → Request → post_result)
    (memory_text : string) (tags : value) (σ : state) :
  endpoints = spec_endpoints
  ∧ length endpoints = 6%nat
  ∧ (1 ≤ length (attempts σ
                   (save_memory accepting network memory_text tags σ).2)
     ≤ 6)%nat
  ∧ attempted_urls σ (save_memory accepting network memory_text tags σ).2
    = take (length (attempts σ
                      (save_memory accepting network memory_text tags σ).2))
        endpoints
  ∧ Forall (λ x : exchange, method x.1 = POST ∧ timeout x.1 = 5)
      (attempts σ (save_memory accepting network memory_text tags σ).2)
  ∧ (length (attempts σ
               (save_memory accepting network memory_text tags σ).2)
     = 6%nat
     ∨ ∃ x, last (attempts σ
                    (save_memory accepting network memory_text tags σ).2)
            = Some x
            ∧ (succeeded x = true ∨ unexpected x = true)).
Proof.
  split; [done|]. split; [done|].
  destruct (run_view network endpoints memory_text tags σ)
    as (payload & o & Hp & _).
  change (attempts σ (save_memory accepting network memory_text tags σ).2)
    with (run_log accepting network endpoints memory_text tags σ).
  split; [|split; [|split]].
  - split.
    + pose proof (probing_nonempty _ _ _ _ _ _ _ Hp) as Hne.
      destruct (run_log accepting network endpoints memory_text tags σ);
        [done|simpl; lia].
    + apply (probing_length _ _ _ _ _ _ Hp).
  - apply (probing_urls _ _ _ _ _ _ Hp).
  - eapply Forall_impl; [apply (probing_requests _ _ _ _ _ _ Hp)|].
    intros x ->. done.
  - apply (probing_stops_early _ _ _ _ _ _ Hp).
Qed.

(** C9. Called without tags (or with [None]), [save_memory] builds a
    payload whose [tags] entry is a new empty list, and the body of every
    request has the array [[]] under [tags], not [null]. *)
Theorem missing_tags_are_an_empty_list
    (network : nat → Request → post_result) (candidates : list string)
    (memory_text : string) (σ : state) :
  (∃ l l',
     heap σ !! l = None ∧ heap σ !! l' = None
     ∧ run_store accepting network candidates memory_text VNone σ !! l
       = Some (ODict [ ("memory"%string, VStr memory_text);
                       ("tags"%string, VRef l') ])
     ∧ run_store accepting network candidates memory_text VNone σ !! l'
       = Some (OList []))
  ∧ Forall (λ x : exchange,
              json_body x.1
              = JObject [ ("memory"%string, JString memory_text);
                          ("tags"%string, JArray []) ])
      (run_log accepting network candidates memory_text VNone σ).
Proof.
  split.
  - destruct (run_view network candidates memory_text VNone σ)
      as (payload & o & _ & _ & _ & _ & _ & Hholds & _).
    destruct Hholds as (l & tags' & _ & Hl & Hdict & l' & -> & Hl' & Hlist).
    by exists l, l'.
  - by apply (requests_carry_payload network candidates memory_text VNone σ).
Qed.

(** C10. [save_memory] leaves its arguments as they were: the list of tags
    the caller passed holds the same items after the call, as does every
    other object of the caller's store, and the text, a [str], is a value
    that cannot change.  Of the caller's state only standard output moves,
    and only by lines added at its end. *)
Theorem arguments_left_untouched
    (network : nat → Request → post_result) (candidates : list string)
    (memory_text : string) (σ : state) (l : loc) (items : list string) :
  heap σ !! l = Some (OList items) →
  run_store accepting network candidates memory_text (VRef l) σ !! l
    = Some (OList items)
  ∧ heap σ ⊆ run_store accepting network candidates memory_text (VRef l) σ
  ∧ stdout (run accepting network candidates memory_text (VRef l) σ).2
    = stdout σ ++ run_output accepting network candidates memory_text (VRef l) σ
  ∧ Forall (λ x : exchange,
              json_body x.1
              = JObject [ ("memory"%string, JString memory_text);
                          ("tags"%string, JArray items) ])
      (run_log accepting network candidates memory_text (VRef l) σ).
Proof.
  intros Hl.
  destruct (run_view network candidates memory_text (VRef l) σ)
    as (payload & o & _ & _ & _ & Hsub & Hout & _).
  split; [|split; [done|split; [done|]]].
  - by eapply lookup_weaken.
  - pose proof (requests_carry_payload network candidates memory_text
                  (VRef l) σ) as Hbody.
    unfold payload_json, json_of_value, live in Hbody. rewrite Hl in Hbody.
    by apply Hbody.
Qed.

Lemma arguments_left_untouched_witness :
  run_store accepting Scenario.third_saves endpoints "note" (VRef 7%nat)
    Scenario.caller !! 7%nat
    = Some (OList ["vercel"; "auth"]%string)
  ∧ heap Scenario.caller
    ⊆ run_store accepting Scenario.third_saves endpoints "note" (VRef 7%nat)
        Scenario.caller
  ∧ stdout (run accepting Scenario.third_saves endpoints "note" (VRef 7%nat)
              Scenario.caller).2
    = stdout Scenario.caller
      ++ run_output accepting Scenario.third_saves endpoints "note" (VRef 7%nat)
           Scenario.caller
  ∧ Forall (λ x : exchange,
              json_body x.1
              = JObject [ ("memory"%string, JString "note");
                          ("tags"%string, JArray ["vercel"; "auth"]%string) ])
      (run_log accepting Scenario.third_saves endpoints "note" (VRef 7%nat)
         Scenario.caller).
Proof.
  apply (arguments_left_untouched Scenario.third_saves endpoints "note"
           Scenario.caller 7%nat ["vercel"; "auth"]%string).
  reflexivity.
Defined.


(** * Further properties of the script *)

(** ** How a run ends *)





(** ** How many requests, and with what *)

(** X5. The requests of a call go to the candidates in the listed order,
    one for each position from the first on: the requests made are to the
    first candidates of the list, there are no more of them than
    candidates, and there is none only when there is no candidate, so that
    the first endpoint of a list that is not empty is always the first one
    requested. *)
Theorem request_count_bounds
    (network : nat → Request → post_result) (candidates : list string)
    (memory_text : string) (tags : value) (σ : state) :
  run_urls accepting network candidates memory_text tags σ
    = take (length (run_log accepting network candidates memory_text tags σ))
        candidates
  ∧ (length (run_log accepting network candidates memory_text tags σ)
     ≤ length candidates)%nat
  ∧ (run_log accepting network candidates memory_text tags σ = []
     ↔ candidates = [])
  ∧ head (run_urls accepting network candidates memory_text tags σ)
    = head candidates.
Proof.
  destruct (run_view network candidates memory_text tags σ)
    as (payload & o & Hp & _).
  assert (Hurls : run_urls accepting network candidates memory_text tags σ
                  = take (length (run_log accepting network candidates
                                    memory_text tags σ)) candidates).
  { rewrite run_urls_log. apply (probing_urls _ _ _ _ _ _ Hp). }
  split; [done|]. split; [by eapply probing_length|]. split; [split|].
  - intros Hnil. destruct candidates as [|endpoint rest]; [done|].
    by apply probing_nonempty in Hp.
  - intros ->. by apply probing_nil in Hp as [? _].
  - rewrite Hurls. destruct candidates as [|endpoint rest].
    + by rewrite take_nil.
    + pose proof (probing_nonempty _ _ _ _ _ _ _ Hp) as Hne.
      destruct (run_log accepting network (endpoint :: rest) memory_text
                  tags σ); [done|]. done.
Qed.

Lemma request_count_bounds_witness :
  run_urls accepting Scenario.third_saves Scenario.abc "note" VNone initial
    = take (length (run_log accepting Scenario.third_saves Scenario.abc
                      "note" VNone initial)) Scenario.abc
  ∧ (length (run_log accepting Scenario.third_saves Scenario.abc "note"
               VNone initial) ≤ length Scenario.abc)%nat
  ∧ (run_log accepting Scenario.third_saves Scenario.abc "note" VNone
       initial = []
     ↔ Scenario.abc = [])
  ∧ head (run_urls accepting Scenario.third_saves Scenario.abc "note" VNone
            initial)
    = head Scenario.abc.
Proof.
  apply (request_count_bounds Scenario.third_saves Scenario.abc
           "note" VNone initial).
Defined.

(** X6. [save_memory] does not check or convert its [tags] argument, only
    [None] is replaced: tags given as a plain string go out as a JSON
    string under [tags], not as an array. *)
Theorem string_tags_sent_as_given
    (network : nat → Request → post_result) (candidates : list string)
    (memory_text label : string) (σ : state) :
  Forall (λ x : exchange,
            json_body x.1
            = JObject [ ("memory"%string, JString memory_text);
                        ("tags"%string, JString label) ])
    (run_log accepting network candidates memory_text (VStr label) σ).
Proof.
  by apply (requests_carry_payload network candidates memory_text
              (VStr label) σ).
Qed.

(** ** Longer candidate lists *)

Section Append.

Variable network : nat → Request → post_result.
Variable body : json.

(** A walk that did not run off the end of its list is the walk of any
    longer list. *)
Lemma probing_app_stop n c1 c2 log1 o1 log o :
  probing network body n c1 log1 o1 →
  o1 ≠ Normal tt →
  probing network body n (c1 ++ c2) log o →
  log = log1 ∧ o = o1.
Proof.
  intros Hp1. revert log o. induction Hp1 as
    [n|n endpoint rest log1 o1 Hrec Hp1 IH|n endpoint rest Hs
    |n endpoint rest e He Hne]; intros log o Hne1 Hp.
  - done.
  - inversion Hp as [|? ? ? log' ? Hrec' Hp'|? ? ? Hs'|? ? ? e' He' Hne'];
      simplify_eq.
    + destruct (IH _ _ Hne1 Hp') as [-> ->]. done.
    + apply succeeded_not_recoverable in Hs'. congruence.
    + unfold recoverable in Hrec. rewrite He', Hne' in Hrec. done.
  - inversion Hp as [|? ? ? log' ? Hrec' Hp'|? ? ? Hs'|? ? ? e' He' Hne'];
      simplify_eq.
    + apply succeeded_not_recoverable in Hs. congruence.
    + done.
    + unfold succeeded in Hs. rewrite He' in Hs. done.
  - inversion Hp as [|? ? ? log' ? Hrec' Hp'|? ? ? Hs'|? ? ? e' He' Hne'];
      simplify_eq.
    + unfold recoverable in Hrec'. rewrite He, Hne in Hrec'. done.
    + unfold succeeded in Hs'. rewrite He in Hs'. done.
    + split; [done|]. congruence.
Qed.

(** The walk of a list begins the walk of any longer list. *)
Lemma probing_app_prefix n c1 c2 log1 o1 log o :
  probing network body n c1 log1 o1 →
  probing network body n (c1 ++ c2) log o →
  log1 `prefix_of` log.
Proof.
  intros Hp1. revert log o. induction Hp1 as
    [n|n endpoint rest log1 o1 Hrec Hp1 IH|n endpoint rest Hs
    |n endpoint rest e He Hne]; intros log o Hp.
  - apply prefix_nil.
  - inversion Hp as [|? ? ? log' ? Hrec' Hp'|? ? ? Hs'|? ? ? e' He' Hne'];
      simplify_eq.
    + apply prefix_cons. by eapply IH.
    + apply succeeded_not_recoverable in Hs'. congruence.
    + unfold recoverable in Hrec. rewrite He', Hne' in Hrec. done.
  - inversion Hp as [|? ? ? log' ? Hrec' Hp'|? ? ? Hs'|? ? ? e' He' Hne'];
      simplify_eq.
    + apply prefix_cons, prefix_nil.
    + done.
    + done.
  - inversion Hp as [|? ? ? log' ? Hrec' Hp'|? ? ? Hs'|? ? ? e' He' Hne'];
      simplify_eq.
    + apply prefix_cons, prefix_nil.
    + done.
    + done.
Qed.

End Append.

(** The payload is built before the loop, whatever the list is. *)
Lemma save_memory_body_split network memory_text tags σ :
  ∃ payload σ2,
    wire σ2 = wire σ ∧ stdout σ2 = stdout σ
    ∧ ∀ candidates,
        save_memory_body accepting network candidates memory_text tags σ
        = attemptDelivery accepting network payload candidates σ2.
Proof.
  destruct tags as [|s|l]; eexists _, _;
    (split; [|split]); [| |intros candidates; reflexivity|
                        | |intros candidates; reflexivity|
                        | |intros candidates; reflexivity]; done.
Qed.

Lemma run_split network memory_text tags σ :
  ∃ payload σ2,
    wire σ2 = wire σ ∧ stdout σ2 = stdout σ
    ∧ ∀ candidates, ∃ log o,
        probing network (json_of_payload (heap σ2) payload)
          (length (wire σ)) candidates log o
        ∧ run accepting network candidates memory_text tags σ
          = (Returned (closing_result o),
             extend σ2
               (concat (attempt_lines <$> log) ++ closing_lines o) log).
Proof.
  destruct (save_memory_body_split network memory_text tags σ)
    as (payload & σ2 & Hw & Hs & Hbody).
  exists payload, σ2. split; [done|]. split; [done|].
  intros candidates.
  destruct (attemptDelivery_run network payload candidates σ2)
    as (log & o & Hp & Hrun).
  exists log, o. rewrite Hw in Hp. split; [done|].
  unfold run, save_memory_with, call. by rewrite Hbody, Hrun.
Qed.

(** X7. Once a list of candidates brings a success, candidates added after
    it change nothing: the call over the longer list returns the same
    value and leaves the same state, output and requests included. *)
Theorem success_ignores_later_candidates
    (network : nat → Request → post_result) (c1 c2 : list string)
    (memory_text : string) (tags : value) (σ : state) :
  run_result accepting network c1 memory_text tags σ = Returned true →
  run accepting network (c1 ++ c2) memory_text tags σ
  = run accepting network c1 memory_text tags σ.
Proof.
  intros Htrue.
  destruct (run_split network memory_text tags σ)
    as (payload & σ2 & Hw & Hs & Hruns).
  destruct (Hruns c1) as (log1 & o1 & Hp1 & Hrun1).
  destruct (Hruns (c1 ++ c2)) as (log & o & Hp & Hrun).
  unfold run_result in Htrue. rewrite Hrun1 in Htrue. simpl in Htrue.
  assert (o1 ≠ Normal tt) by (intros ->; discriminate Htrue).
  destruct (probing_app_stop _ _ _ _ _ _ _ _ _ Hp1 H Hp) as [-> ->].
  by rewrite Hrun, Hrun1.
Qed.

Lemma success_ignores_later_candidates_witness :
  run accepting Scenario.third_saves (Scenario.abc ++ ["D"; "E"]%string) "note" VNone
    initial
  = run accepting Scenario.third_saves Scenario.abc "note" VNone initial.
Proof.
  apply (success_ignores_later_candidates Scenario.third_saves Scenario.abc
           ["D"; "E"]%string "note" VNone initial).
  reflexivity.
Defined.

(** X8. Candidates added at the end of the list do not touch what happens
    before them: the requests made over a list are the first requests made
    over any longer list. *)
Theorem longer_list_extends_requests
    (network : nat → Request → post_result) (c1 c2 : list string)
    (memory_text : string) (tags : value) (σ : state) :
  run_log accepting network c1 memory_text tags σ
  `prefix_of` run_log accepting network (c1 ++ c2) memory_text tags σ.
Proof.
  destruct (run_split network memory_text tags σ)
    as (payload & σ2 & Hw & Hs & Hruns).
  destruct (Hruns c1) as (log1 & o1 & Hp1 & Hrun1).
  destruct (Hruns (c1 ++ c2)) as (log & o & Hp & Hrun).
  unfold run_log, attempts. rewrite Hrun, Hrun1. simpl.
  rewrite <- Hw, !drop_app_length.
  by eapply probing_app_prefix.
Qed.

(** ** The script run as a program *)

(** The block under [__main__] is one call of [save_memory] on the list of
    tags it has just built; the value of the call is dropped. *)
Lemma main_run network σ :
  ∃ l σ1 b,
    heap σ1 !! l = Some (OList main_tags)
    ∧ wire σ1 = wire σ ∧ stdout σ1 = stdout σ
    ∧ run accepting network endpoints main_memory_text (VRef l) σ1
      = (Returned b,
         (run accepting network endpoints main_memory_text (VRef l) σ1).2)
    ∧ main accepting network σ
      = (Normal tt, (run accepting network endpoints main_memory_text (VRef l) σ1).2).
Proof.
  destruct (alloc_heap (OList main_tags) σ) as (l & Hl & Halloc).
  set (σ1 := {| heap := <[l:=OList main_tags]> (heap σ);
                stdout := stdout σ; wire := wire σ |}) in *.
  destruct (run_view network endpoints main_memory_text (VRef l) σ1)
    as (payload & o & _ & Hres & _).
  exists l, σ1, (closing_result o).
  split; [apply lookup_insert_eq|]. split; [done|]. split; [done|].
  assert (Hrun : run accepting network endpoints main_memory_text (VRef l) σ1
                 = (Returned (closing_result o),
                    (run accepting network endpoints main_memory_text (VRef l) σ1).2)).
  { unfold run_result in Hres.
    destruct (run accepting network endpoints main_memory_text (VRef l) σ1)
      as [r s']. simpl in *. by rewrite Hres. }
  split; [done|].
  unfold main, mbind, M_bind. rewrite Halloc. fold σ1.
  unfold expr_stmt.
  change (save_memory accepting network main_memory_text (VRef l) σ1)
    with (run accepting network endpoints main_memory_text (VRef l) σ1).
  by rewrite Hrun.
Qed.

(** X10. Run as a program, the script makes at least one request and at
    most six, to the first endpoints of the list in order; each is a POST
    with timeout 5 whose body has the text of the script under [memory]
    and its six labels, in order, under [tags]. *)
Theorem main_requests
    (network : nat → Request → post_result) (σ : state) :
  (1 ≤ length (attempts σ (main accepting network σ).2) ≤ 6)%nat
  ∧ attempted_urls σ (main accepting network σ).2
    = take (length (attempts σ (main accepting network σ).2)) endpoints
  ∧ Forall (λ x : exchange,
              x.1 = request_to
                      (JObject [ ("memory"%string, JString main_memory_text);
                                 ("tags"%string, JArray main_tags) ])
                      (url x.1))
      (attempts σ (main accepting network σ).2).
Proof.
  destruct (main_run network σ) as (l & σ1 & b & Hl & Hw & _ & _ & Hmain).
  rewrite Hmain. cbn [snd].
  assert (Hlog : attempts σ
                   (run accepting network endpoints main_memory_text (VRef l) σ1).2
                 = run_log accepting network endpoints main_memory_text (VRef l) σ1).
  { unfold run_log, attempts. by rewrite Hw. }
  unfold attempted_urls. rewrite Hlog.
  destruct (run_view network endpoints main_memory_text (VRef l) σ1)
    as (payload & o & Hp & _ & _ & _ & _ & _ & Hj).
  split; [split|split].
  - pose proof (probing_nonempty _ _ _ _ _ _ _ Hp) as Hne.
    destruct (run_log _ _ _ _ _); [done|simpl; lia].
  - apply (probing_length _ _ _ _ _ _ Hp).
  - apply (probing_urls _ _ _ _ _ _ Hp).
  - eapply Forall_impl; [apply (probing_requests _ _ _ _ _ _ Hp)|].
    intros x Hx. rewrite Hx at 1. simpl. f_equal.
    rewrite Hj by (by exists (OList main_tags)).
    unfold payload_json, json_of_value. by rewrite Hl.
Qed.

(** ** After a failure *)

(** X11. A failed attempt, be it a [RequestException] (network error,
    timeout) or an answer whose status is not 200, is followed by the
    attempt on the next endpoint of the list when there is one: the next
    request of the run is a POST to that endpoint. *)
Theorem failed_attempt_moves_to_next
    (network : nat → Request → post_result) (candidates : list string)
    (memory_text : string) (tags : value) (σ : state)
    (i : nat) (x : exchange) (next : string) :
  run_log accepting network candidates memory_text tags σ !! i = Some x →
  recoverable x = true →
  candidates !! S i = Some next →
  candidates !! i = Some (url x.1)
  ∧ ∃ y, run_log accepting network candidates memory_text tags σ !! S i
         = Some y
         ∧ url y.1 = next ∧ method y.1 = POST.
Proof.
  intros Hi Hrec Hnext.
  destruct (run_view network candidates memory_text tags σ)
    as (payload & o & Hp & _).
  split.
  - destruct (probing_lookup _ _ _ _ _ _ _ _ Hp Hi) as (ep & Hep & ->).
    done.
  - apply lookup_lt_Some in Hnext as Hlt.
    pose proof (probing_proceeds _ _ _ _ _ _ _ _ Hp Hi Hrec Hlt) as Hlt'.
    apply lookup_lt_is_Some in Hlt' as [y Hy].
    exists y. split; [done|].
    destruct (probing_lookup _ _ _ _ _ _ _ _ Hp Hy) as (ep & Hep & ->).
    split; [|done]. simpl. congruence.
Qed.

Lemma failed_attempt_moves_to_next_witness :
  Scenario.abc !! 1%nat = Some "B"%string
  ∧ ∃ y, run_log accepting Scenario.third_saves Scenario.abc "note" VNone
           initial !! 2%nat = Some y
         ∧ url y.1 = "C"%string ∧ method y.1 = POST.
Proof.
  apply (failed_attempt_moves_to_next Scenario.third_saves Scenario.abc
           "note" VNone initial 1
           (request_to (payload_json ∅ "note" VNone) "B",
            Raised Scenario.refused) "C").
  - vm_compute. reflexivity.
  - reflexivity.
  - reflexivity.
Defined.
